(** * playlistbot: the capacity-bounded append of [playlist.py]

    A shallow embedding of [SpotifyPlaylist.remove] and [SpotifyPlaylist.add]
    from [src/playlist-bot/playlist.py] (the copy in [spotify.py] differs only
    in the names [remove_tracks], [add_track] and [SpotifyPlaylistException]),
    followed by the properties of the specification that they decide.

    Python integers are [Z].  [SONG_LIMIT = 1e4] is a float in the source; it
    only ever meets integers through [+], [-], [>=] and [>], which are exact on
    integral values of this magnitude, so it is the integer 10000 here.  The
    [Counter] is a [gmap string Z] read with a default of 0.  The Spotify
    client is a record of state-passing functions over an arbitrary remote
    state; every call may raise.  The methods run in a state monad over the
    object's fields that also writes the list of remote calls they issue. *)

From Stdlib Require Import ZArith Lia.
From stdpp Require Import gmap strings list pretty.

Open Scope string_scope.
Open Scope list_scope.
Open Scope Z_scope.

(** ** Constants *)

Definition SONG_LIMIT : Z := 10000.
Definition SCOPE : string := "playlist-modify-public".

(** ** Exceptions *)

(** The exceptions that can leave [add]: the client's [SpotifyException],
    whatever else the client may raise (connection errors and the like), and
    the interpreter's [TypeError]. *)
Inductive exn : Type :=
| SpotifyException (msg : string)
| OtherException (msg : string)
| TypeError (msg : string).

(** [str(e)] *)
Definition str (e : exn) : string :=
  match e with
  | SpotifyException msg => msg
  | OtherException msg => msg
  | TypeError msg => msg
  end.

(** [PlaylistError(msg)].  The class is declared as [class PlaylistError:]
    with body [pass]: it has no base class and no [__init__], so calling it
    with an argument raises [TypeError] before the [raise] statement gets a
    value (and an instance would not be raisable either, as it does not derive
    from [BaseException]).  The message built by the caller is dropped; the
    text of the [TypeError] is CPython's, from 3.7 on. *)
Definition PlaylistError (msg : string) : exn :=
  TypeError "PlaylistError() takes no arguments".

(** ** The paging object and the client *)

(** [_playlist["tracks"]]: the keys [remove] reads.  An item stands for
    [item["track"]["id"]]. *)
Record paging : Type := Paging {
  items : list string;
  total : N;
  next : option string
}.

(** Truth value of [tracks["next"]]: [None] and the empty string are false. *)
Definition truthy (o : option string) : bool :=
  match o with
  | None => false
  | Some EmptyString => false
  | Some (String _ _) => true
  end.

(** The remote calls, as the source spells their arguments. *)
Inductive call : Type :=
| user_playlist_call (user playlist_id fields : string)
| next_call (result : paging)
| remove_all_occurrences_call (user playlist_id : string) (tracks : list string)
| add_tracks_call (user playlist_id : string) (tracks : list string).

(** A call that was issued, with the exception it raised, if any. *)
Record event : Type := Event {
  ev_call : call;
  ev_error : option exn
}.

Definition is_next_call (ev : event) : bool :=
  match ev_call ev with next_call _ => true | _ => false end.

Definition is_remove_call (ev : event) : bool :=
  match ev_call ev with remove_all_occurrences_call _ _ _ => true | _ => false end.

Definition is_add_call (ev : event) : bool :=
  match ev_call ev with add_tracks_call _ _ _ => true | _ => false end.

(** The methods of [spotipy.Spotify] that the source calls, over the state [R]
    of the remote service ([spotify_next] is the client's [next]). *)
Record Spotify (R : Type) : Type := {
  user_playlist : R -> string -> string -> string -> R * (exn + paging);
  spotify_next : R -> paging -> R * (exn + paging);
  user_playlist_remove_all_occurrences_of_tracks :
    R -> string -> string -> list string -> R * (exn + unit);
  user_playlist_add_tracks :
    R -> string -> string -> list string -> R * (exn + string)
}.
Arguments user_playlist {R}.
Arguments spotify_next {R}.
Arguments user_playlist_remove_all_occurrences_of_tracks {R}.
Arguments user_playlist_add_tracks {R}.

(** ** [collections.Counter] *)

(** [c[k]]: a missing key reads as 0 and is not inserted. *)
Definition counter_get (c : gmap string Z) (k : string) : Z :=
  default 0 (c !! k).

(** [c[k] += d]: reads with the default, then stores. *)
Definition counter_iadd (c : gmap string Z) (k : string) (d : Z) : gmap string Z :=
  <[k := counter_get c k + d]> c.

(** ** The object and its monad *)

(** The fields of a [SpotifyPlaylist] that [remove] and [add] use. *)
Record SpotifyPlaylist (R : Type) : Type := Self {
  user : string;
  spotify : R;
  playlist_count : gmap string Z
}.
Arguments Self {R}.
Arguments user {R}.
Arguments spotify {R}.
Arguments playlist_count {R}.

(** How a method ends: it returns, it raises, or (the model only) its loop
    was cut off by the fuel. *)
Inductive outcome (A : Type) : Type :=
| Return (a : A)
| Raise (e : exn)
| Timeout.
Arguments Return {A}.
Arguments Raise {A}.
Arguments Timeout {A}.

Definition M (R A : Type) : Type :=
  SpotifyPlaylist R -> outcome A * SpotifyPlaylist R * list event.

Definition ret {R A} (a : A) : M R A := fun self => (Return a, self, []).

Definition raise {R A} (e : exn) : M R A := fun self => (Raise e, self, []).

Definition timeout {R A} : M R A := fun self => (Timeout, self, []).

Definition bind {R A B} (m : M R A) (k : A -> M R B) : M R B :=
  fun self =>
    match m self with
    | (Return a, self1, log1) =>
        let '(o, self2, log2) := k a self1 in (o, self2, log1 ++ log2)
    | (Raise e, self1, log1) => (Raise e, self1, log1)
    | (Timeout, self1, log1) => (Timeout, self1, log1)
    end.

Declare Scope py_scope.
Delimit Scope py_scope with py.
Notation "x <- m ;; k" := (bind m (fun x => k))
  (at level 100, m at next level, right associativity) : py_scope.
Notation "m ;; k" := (bind m (fun _ => k))
  (at level 100, right associativity) : py_scope.

(** [try: body except (SpotifyException,) as e: handler e] *)
Definition try_except_SpotifyException {R A} (body : M R A) (handler : exn -> M R A)
  : M R A :=
  fun self =>
    match body self with
    | (Raise (SpotifyException msg), self1, log1) =>
        let '(o, self2, log2) := handler (SpotifyException msg) self1 in
        (o, self2, log1 ++ log2)
    | r => r
    end.

(** One remote call: thread the remote state, write the event. *)
Definition remote {R A} (c : call) (f : R -> R * (exn + A)) : M R A :=
  fun self =>
    let '(r, res) := f (spotify self) in
    let self1 := Self (user self) r (playlist_count self) in
    match res with
    | inl e => (Raise e, self1, [Event c (Some e)])
    | inr a => (Return a, self1, [Event c None])
    end.

(** [self.user] *)
Definition self_user {R} : M R string :=
  fun self => (Return (user self), self, []).

(** [self.playlist_count[playlist_id]] *)
Definition count_of {R} (playlist_id : string) : M R Z :=
  fun self => (Return (counter_get (playlist_count self) playlist_id), self, []).

(** [self.playlist_count[playlist_id] += d] *)
Definition count_iadd {R} (playlist_id : string) (d : Z) : M R unit :=
  fun self =>
    (Return tt,
     Self (user self) (spotify self)
          (counter_iadd (playlist_count self) playlist_id d),
     []).

(** ** [SpotifyPlaylist.remove] and [SpotifyPlaylist.add] *)

(** The [for] loop of [remove]: [remove.append(item["track"]["id"])] until
    [count] reaches [n] or the items of the page run out. *)
Fixpoint collect (n count : Z) (remove : list string) (its : list string)
  : list string :=
  match its with
  | [] => remove
  | item :: rest =>
      if count >=? n then remove
      else collect n (count + 1) (remove ++ [item]) rest
  end.

(** The message of the capacity guard,
    [f"{n_tracks} exceeds playlist song limit of {SONG_LIMIT}"]. *)
Definition limit_message (n_tracks : Z) : string :=
  pretty n_tracks +:+ " exceeds playlist song limit of 10000.0".

Section Controller.

Context {R : Type}.
Variable api : Spotify R.

Open Scope py_scope.

(** The [while True] loop of [remove], entered with the first page; [fuel]
    bounds the number of pages read. *)
Fixpoint count_songs (fuel : nat) (playlist_id : string) (tracks : paging)
  : M R unit :=
  match fuel with
  | O => timeout
  | S fuel' =>
      count_iadd playlist_id (Z.of_N (total tracks)) ;;
      if truthy (next tracks) then
        tracks' <- remote (next_call tracks) (fun r => spotify_next api r tracks) ;;
        count_songs fuel' playlist_id tracks'
      else ret tt
  end.

Definition remove (fuel : nat) (playlist_id : string) (n_tracks : Z) : M R unit :=
  u <- self_user ;;
  tracks <- remote (user_playlist_call u playlist_id "tracks,next,name")
              (fun r => user_playlist api r u playlist_id "tracks,next,name") ;;
  c <- count_of playlist_id ;;
  let total_tracks := c + n_tracks in
  if total_tracks >=? SONG_LIMIT then
    let n := total_tracks - SONG_LIMIT in
    c1 <- count_of playlist_id ;;
    if n >? c1 then raise (PlaylistError (limit_message n_tracks))
    else
      let remove := collect n 0 [] (items tracks) in
      u1 <- self_user ;;
      remote (remove_all_occurrences_call u1 playlist_id remove)
        (fun r => user_playlist_remove_all_occurrences_of_tracks api r u1 playlist_id remove)
  else
    c2 <- count_of playlist_id ;;
    if c2 =? 0 then count_songs fuel playlist_id tracks else ret tt.

(** The [try] statement of [add]. *)
Definition add_try (playlist_id : string) (tracks : list string) : M R string :=
  try_except_SpotifyException
    (u <- self_user ;;
     results <- remote (add_tracks_call u playlist_id tracks)
                  (fun r => user_playlist_add_tracks api r u playlist_id tracks) ;;
     count_iadd playlist_id (Z.of_nat (length tracks)) ;;
     ret results)
    (fun e => raise (PlaylistError (str e))).

Definition add (fuel : nat) (playlist_id : string) (tracks : list string)
  : M R string :=
  remove fuel playlist_id (Z.of_nat (length tracks)) ;;
  add_try playlist_id tracks.

(** A caller that issues [add] calls one after the other, going on after an
    exception: the object after the calls and all the remote calls issued. *)
Fixpoint add_all (fuel : nat) (reqs : list (string * list string))
    (self : SpotifyPlaylist R) : SpotifyPlaylist R * list event :=
  match reqs with
  | [] => (self, [])
  | (playlist_id, tracks) :: rest =>
      let '(_, self1, log1) := add fuel playlist_id tracks self in
      let '(self2, log2) := add_all fuel rest self1 in
      (self2, log1 ++ log2)
  end.

End Controller.

(** ** A client that replays recorded answers *)

(** The answers of the remote service, in the order of the calls. *)
Inductive response : Type :=
| page_response (r : exn + paging)
| removed_response (r : exn + unit)
| added_response (r : exn + string).

Definition no_answer {A} : exn + A := inl (OtherException "connection lost").

Definition replay : Spotify (list response) := {|
  user_playlist rs _ _ _ :=
    match rs with
    | page_response r :: rs' => (rs', r)
    | _ => (rs, no_answer)
    end;
  spotify_next rs _ :=
    match rs with
    | page_response r :: rs' => (rs', r)
    | _ => (rs, no_answer)
    end;
  user_playlist_remove_all_occurrences_of_tracks rs _ _ _ :=
    match rs with
    | removed_response r :: rs' => (rs', r)
    | _ => (rs, no_answer)
    end;
  user_playlist_add_tracks rs _ _ _ :=
    match rs with
    | added_response r :: rs' => (rs', r)
    | _ => (rs, no_answer)
    end
|}.

(** ** The paths through [remove] and [add]

    The same two methods as relations between the object a method is entered
    with and its outcome, final object and remote calls, one constructor per
    way through the code.  They are derived from the definitions above
    ([remove_follows_path], [add_follows_path]) and carry the case analysis
    of the proofs. *)

Section Paths.

Context {R : Type}.
Variable api : Spotify R.
Variable fuel : nat.
Variable playlist_id : string.

(** What [except (SpotifyException,) as e: raise PlaylistError(str(e))] makes
    of an exception of the append call. *)
Definition surfaced (e : exn) : exn :=
  match e with
  | SpotifyException msg => PlaylistError (str (SpotifyException msg))
  | _ => e
  end.

(** The two ways through the [try] statement, entered with [self]. *)
Inductive add_try_path (tracks : list string) (self : SpotifyPlaylist R)
  : outcome string -> SpotifyPlaylist R -> list event -> Prop :=
| append_returned r results :
    user_playlist_add_tracks api (spotify self) (user self) playlist_id tracks
      = (r, inr results) ->
    add_try_path tracks self (Return results)
      (Self (user self) r
         (counter_iadd (playlist_count self) playlist_id (Z.of_nat (length tracks))))
      [Event (add_tracks_call (user self) playlist_id tracks) None]
| append_raised r e :
    user_playlist_add_tracks api (spotify self) (user self) playlist_id tracks
      = (r, inl e) ->
    add_try_path tracks self (Raise (surfaced e))
      (Self (user self) r (playlist_count self))
      [Event (add_tracks_call (user self) playlist_id tracks) (Some e)].

(** The ways through [remove], entered with [self]. *)
Inductive remove_path (n_tracks : Z) (self : SpotifyPlaylist R)
  : outcome unit -> SpotifyPlaylist R -> list event -> Prop :=
| fetch_raised r e :
    user_playlist api (spotify self) (user self) playlist_id "tracks,next,name"
      = (r, inl e) ->
    remove_path n_tracks self (Raise e) (Self (user self) r (playlist_count self))
      [Event (user_playlist_call (user self) playlist_id "tracks,next,name") (Some e)]
| guard_raised r page :
    user_playlist api (spotify self) (user self) playlist_id "tracks,next,name"
      = (r, inr page) ->
    SONG_LIMIT <= counter_get (playlist_count self) playlist_id + n_tracks ->
    counter_get (playlist_count self) playlist_id
      < counter_get (playlist_count self) playlist_id + n_tracks - SONG_LIMIT ->
    remove_path n_tracks self (Raise (PlaylistError (limit_message n_tracks)))
      (Self (user self) r (playlist_count self))
      [Event (user_playlist_call (user self) playlist_id "tracks,next,name") None]
| removal_raised r page r' e :
    user_playlist api (spotify self) (user self) playlist_id "tracks,next,name"
      = (r, inr page) ->
    SONG_LIMIT <= counter_get (playlist_count self) playlist_id + n_tracks ->
    counter_get (playlist_count self) playlist_id + n_tracks - SONG_LIMIT
      <= counter_get (playlist_count self) playlist_id ->
    user_playlist_remove_all_occurrences_of_tracks api r (user self) playlist_id
      (collect (counter_get (playlist_count self) playlist_id + n_tracks - SONG_LIMIT)
         0 [] (items page))
      = (r', inl e) ->
    remove_path n_tracks self (Raise e) (Self (user self) r' (playlist_count self))
      [Event (user_playlist_call (user self) playlist_id "tracks,next,name") None;
       Event (remove_all_occurrences_call (user self) playlist_id
                (collect
                   (counter_get (playlist_count self) playlist_id + n_tracks - SONG_LIMIT)
                   0 [] (items page)))
         (Some e)]
| evicted r page r' :
    user_playlist api (spotify self) (user self) playlist_id "tracks,next,name"
      = (r, inr page) ->
    SONG_LIMIT <= counter_get (playlist_count self) playlist_id + n_tracks ->
    counter_get (playlist_count self) playlist_id + n_tracks - SONG_LIMIT
      <= counter_get (playlist_count self) playlist_id ->
    user_playlist_remove_all_occurrences_of_tracks api r (user self) playlist_id
      (collect (counter_get (playlist_count self) playlist_id + n_tracks - SONG_LIMIT)
         0 [] (items page))
      = (r', inr tt) ->
    remove_path n_tracks self (Return tt) (Self (user self) r' (playlist_count self))
      [Event (user_playlist_call (user self) playlist_id "tracks,next,name") None;
       Event (remove_all_occurrences_call (user self) playlist_id
                (collect
                   (counter_get (playlist_count self) playlist_id + n_tracks - SONG_LIMIT)
                   0 [] (items page)))
         None]
| walked r page o self' log :
    user_playlist api (spotify self) (user self) playlist_id "tracks,next,name"
      = (r, inr page) ->
    counter_get (playlist_count self) playlist_id + n_tracks < SONG_LIMIT ->
    counter_get (playlist_count self) playlist_id = 0 ->
    count_songs api fuel playlist_id page (Self (user self) r (playlist_count self))
      = (o, self', log) ->
    remove_path n_tracks self o self'
      (Event (user_playlist_call (user self) playlist_id "tracks,next,name") None
       :: log)
| left_alone r page :
    user_playlist api (spotify self) (user self) playlist_id "tracks,next,name"
      = (r, inr page) ->
    counter_get (playlist_count self) playlist_id + n_tracks < SONG_LIMIT ->
    counter_get (playlist_count self) playlist_id <> 0 ->
    remove_path n_tracks self (Return tt) (Self (user self) r (playlist_count self))
      [Event (user_playlist_call (user self) playlist_id "tracks,next,name") None].

(** [add] is [remove], then, if it returned, the [try] statement. *)
Inductive add_path (tracks : list string) (self : SpotifyPlaylist R)
  : outcome string -> SpotifyPlaylist R -> list event -> Prop :=
| remove_raised e self' log :
    remove_path (Z.of_nat (length tracks)) self (Raise e) self' log ->
    add_path tracks self (Raise e) self' log
| remove_cut_off self' log :
    remove_path (Z.of_nat (length tracks)) self Timeout self' log ->
    add_path tracks self Timeout self' log
| remove_returned self1 log1 o self' log :
    remove_path (Z.of_nat (length tracks)) self (Return tt) self1 log1 ->
    add_try_path tracks self1 o self' log ->
    add_path tracks self o self' (log1 ++ log).

End Paths.

(** ** Fixtures: a playlist served page by page *)

Definition track (i : N) : string := "spotify:track:" +:+ pretty i.

Definition tracks_from (offset : N) (len : nat) : list string :=
  map (fun j => track (offset + N.of_nat j)%N) (seq 0 len).

(** The page at [offset] of a playlist of [len] tracks served [size] at a
    time; its [total] is the number of tracks on the page. *)
Definition page_at (len size offset : N) : paging :=
  let k := N.min size (len - offset) in
  Paging (tracks_from offset (N.to_nat k)) k
    (if (offset + size <? len)%N
     then Some ("playlists/p/tracks?offset=" +:+ pretty (offset + size)%N)
     else None).

(** The answers to a walk over the first [count] pages of that playlist. *)
Definition pages (len size : N) (count : nat) : list response :=
  map (fun i => page_response (inr (page_at len size (N.of_nat i * size))))
    (seq 0 count).

(** Answers for a playlist of 150 tracks, served 100 at a time. *)
Definition two_pages : list response :=
  [page_response (inr (page_at 150 100 0)); page_response (inr (page_at 150 100 100))].

(** A page whose [next] link leads back to itself, and a remote that serves
    it on every [next]. *)
Definition looping_page : paging :=
  Paging [track 0] 1 (Some "playlists/p/tracks?offset=0").

Definition looping : Spotify unit := {|
  user_playlist _ _ _ _ := (tt, inr looping_page);
  spotify_next _ _ := (tt, inr looping_page);
  user_playlist_remove_all_occurrences_of_tracks _ _ _ _ := (tt, inr tt);
  user_playlist_add_tracks _ _ _ _ := (tt, inr "snapshot-1")
|}.

Definition snapshot : string := "snapshot-1".

Definition server_error : exn :=
  SpotifyException "http status: 500, code:-1 - Internal Server Error".

(** The object with one count cached for ["p"] and the answers to come. *)
Definition tracking (c : Z) (answers : list response) : SpotifyPlaylist (list response) :=
  Self "jeff" answers {[ "p" := c ]}.

(** The object right after [__init__]: an empty [Counter]. *)
Definition fresh (answers : list response) : SpotifyPlaylist (list response) :=
  Self "jeff" answers ∅.

Definition outcome_of {R A} (run : outcome A * SpotifyPlaylist R * list event) : outcome A :=
  fst (fst run).
Definition object_of {R A} (run : outcome A * SpotifyPlaylist R * list event) : SpotifyPlaylist R :=
  snd (fst run).
Definition log_of {R A} (run : outcome A * SpotifyPlaylist R * list event) : list event :=
  snd run.

(** ** The rest of the repository *)

(** [SpotifyPlaylist.__init__].  The token prompt and the construction of the
    client are the library's; [client] stands for [Spotify(auth=self._token)].
    The object starts with an empty [Counter]. *)
Definition SpotifyPlaylist_init {R} (user : string) (client : R) : SpotifyPlaylist R :=
  Self user client ∅.

(** [playlistbot.py]: importing [playlist] builds the default object, then
    the script adds its two tracks to [PLAYLIST_ID] and prints what [add]
    returned. *)
Definition playlistbot_tracks : list string :=
  ["spotify:track:15kQGEy89K8deJcZVFEn0N"; "spotify:track:2ARqIya5NAuvFVHSN3bL0m"].

Definition playlistbot_main {R} (api : Spotify R) (fuel : nat)
    (USER PLAYLIST_ID : string) (client : R)
  : outcome string * SpotifyPlaylist R * list event :=
  add api fuel PLAYLIST_ID playlistbot_tracks (SpotifyPlaylist_init USER client).

(** [spotify.py], the standalone copy of the class.  Its exception class is
    declared like [PlaylistError], as [class SpotifyPlaylistException:] with
    body [pass], so calling it with a message raises [TypeError] as well. *)
Definition SpotifyPlaylistException (msg : string) : exn :=
  TypeError "SpotifyPlaylistException() takes no arguments".

Section Standalone.

Context {R : Type}.
Variable api : Spotify R.

Open Scope py_scope.

(** [SpotifyPlaylist.remove_tracks] of [spotify.py]; its two loops are those
    of [remove], line for line. *)
Definition remove_tracks (fuel : nat) (playlist_id : string) (n_tracks : Z)
  : M R unit :=
  u <- self_user ;;
  tracks <- remote (user_playlist_call u playlist_id "tracks,next,name")
              (fun r => user_playlist api r u playlist_id "tracks,next,name") ;;
  c <- count_of playlist_id ;;
  let total_tracks := c + n_tracks in
  if total_tracks >=? SONG_LIMIT then
    let n := total_tracks - SONG_LIMIT in
    c1 <- count_of playlist_id ;;
    if n >? c1 then raise (SpotifyPlaylistException (limit_message n_tracks))
    else
      let remove := collect n 0 [] (items tracks) in
      u1 <- self_user ;;
      remote (remove_all_occurrences_call u1 playlist_id remove)
        (fun r => user_playlist_remove_all_occurrences_of_tracks api r u1 playlist_id remove)
  else
    c2 <- count_of playlist_id ;;
    if c2 =? 0 then count_songs api fuel playlist_id tracks else ret tt.

(** [SpotifyPlaylist.add_track] of [spotify.py]. *)
Definition add_track (fuel : nat) (playlist_id : string) (tracks : list string)
  : M R string :=
  remove_tracks fuel playlist_id (Z.of_nat (length tracks)) ;;
  try_except_SpotifyException
    (u <- self_user ;;
     results <- remote (add_tracks_call u playlist_id tracks)
                  (fun r => user_playlist_add_tracks api r u playlist_id tracks) ;;
     count_iadd playlist_id (Z.of_nat (length tracks)) ;;
     ret results)
    (fun e => raise (SpotifyPlaylistException (str e))).

End Standalone.

(** ** What the remote serves during a walk *)

Definition is_user_playlist_call (ev : event) : bool :=
  match ev_call ev with user_playlist_call _ _ _ => true | _ => false end.

(** The sum of [tracks["total"]] over pages. *)
Definition total_of (ps : list paging) : Z :=
  foldr (fun p acc => Z.of_N (total p) + acc) 0 ps.

(** From the remote state [r] and the page [page], the client's [next]
    answers with the pages [rest], one after the other, and the last of them
    has no [next]; [r'] is the remote state then. *)
Inductive served {R} (api : Spotify R) : R -> paging -> list paging -> R -> Prop :=
| served_last r page :
    truthy (next page) = false ->
    served api r page [] r
| served_next r page r1 page1 rest r' :
    truthy (next page) = true ->
    spotify_next api r page = (r1, inr page1) ->
    served api r1 page1 rest r' ->
    served api r page (page1 :: rest) r'.

(** The same, but after the pages [rest] the call of [next] raises [e]. *)
Inductive broken {R} (api : Spotify R) : R -> paging -> list paging -> exn -> R -> Prop :=
| broken_here r page e r' :
    truthy (next page) = true ->
    spotify_next api r page = (r', inl e) ->
    broken api r page [] e r'
| broken_later r page r1 page1 rest e r' :
    truthy (next page) = true ->
    spotify_next api r page = (r1, inr page1) ->
    broken api r1 page1 rest e r' ->
    broken api r page (page1 :: rest) e r'.

(** The successful [next] calls of a walk that starts at [page] and reads
    [rest]. *)
Fixpoint walk_log (page : paging) (rest : list paging) : list event :=
  match rest with
  | [] => []
  | page1 :: rest' => Event (next_call page) None :: walk_log page1 rest'
  end.

(** * Properties *)

(** ** The counter *)

Lemma counter_get_iadd_eq (c : gmap string Z) k d :
  counter_get (counter_iadd c k d) k = counter_get c k + d.
Proof. unfold counter_iadd, counter_get. by rewrite lookup_insert_eq. Qed.

Lemma counter_get_iadd_ne (c : gmap string Z) k k' d :
  k ≠ k' -> counter_get (counter_iadd c k d) k' = counter_get c k'.
Proof. intros Hne. unfold counter_iadd, counter_get. by rewrite lookup_insert_ne. Qed.

Lemma counter_iadd_mono (c : gmap string Z) k k' d :
  0 <= d -> counter_get c k' <= counter_get (counter_iadd c k d) k'.
Proof.
  intros Hd. destruct (decide (k = k')) as [->|Hne].
  - rewrite counter_get_iadd_eq. lia.
  - rewrite counter_get_iadd_ne by done. lia.
Qed.

(** ** The eviction list *)

Lemma collect_spec its : forall n count acc,
  collect n count acc its = acc ++ take (Z.to_nat (n - count)) its.
Proof.
  induction its as [|item rest IH]; intros n count acc; simpl.
  - by rewrite take_nil, app_nil_r.
  - destruct (Z.geb_spec count n) as [Hge|Hlt].
    + replace (Z.to_nat (n - count)) with O by lia. by rewrite app_nil_r.
    + rewrite IH. replace (Z.to_nat (n - count)) with (S (Z.to_nat (n - (count + 1)))) by lia.
      simpl. by rewrite <- app_assoc.
Qed.

(** The list handed to the removal call is the first [n] items of the page
    that [user_playlist] returned, or all of them when the page is shorter. *)
Lemma collect_take n its : collect n 0 [] its = take (Z.to_nat n) its.
Proof. rewrite collect_spec. simpl. by rewrite Z.sub_0_r. Qed.

Lemma collect_length n its :
  length (collect n 0 [] its) = Nat.min (Z.to_nat n) (length its).
Proof. rewrite collect_take. apply length_take. Qed.

Lemma collect_zero its : collect 0 0 [] its = [].
Proof. by rewrite collect_take. Qed.

(** ** The counting walk *)

Section Walk.

Context {R : Type}.
Variable api : Spotify R.

Lemma count_songs_next_only fuel : forall playlist_id tracks self o self' log,
  count_songs api fuel playlist_id tracks self = (o, self', log) ->
  Forall (fun ev => is_next_call ev = true) log.
Proof.
  induction fuel as [|fuel IH]; intros playlist_id tracks self o self' log; simpl.
  - unfold timeout. intros [= <- <- <-]. constructor.
  - unfold bind, count_iadd, remote, ret.
    destruct (truthy (next tracks)); cbn.
    + destruct (spotify_next api (spotify self) tracks) as [r [e|tracks']]; cbn.
      * intros [= <- <- <-]. repeat constructor.
      * destruct (count_songs api fuel playlist_id tracks' _) as [[o1 s1] l1] eqn:Hrec.
        intros [= <- <- <-]. constructor; [done|]. by eapply IH.
    + intros [= <- <- <-]. constructor.
Qed.

Lemma count_songs_mono fuel : forall playlist_id tracks self o self' log k,
  count_songs api fuel playlist_id tracks self = (o, self', log) ->
  counter_get (playlist_count self) k <= counter_get (playlist_count self') k.
Proof.
  induction fuel as [|fuel IH]; intros playlist_id tracks self o self' log k; simpl.
  - unfold timeout. intros [= <- <- <-]. lia.
  - unfold bind, count_iadd, remote, ret.
    pose proof (counter_iadd_mono (playlist_count self) playlist_id k
                  (Z.of_N (total tracks)) ltac:(lia)) as Hstep.
    destruct (truthy (next tracks)); cbn.
    + destruct (spotify_next api (spotify self) tracks) as [r [e|tracks']]; cbn.
      * intros [= <- <- <-]. simpl. lia.
      * destruct (count_songs api fuel playlist_id tracks' _) as [[o1 s1] l1] eqn:Hrec.
        intros [= <- <- <-]. apply (IH _ _ _ _ _ _ k) in Hrec. simpl in Hrec. lia.
    + intros [= <- <- <-]. simpl. lia.
Qed.

End Walk.

(** ** [remove] and [add] follow their paths *)

Lemma next_call_not_remove ev : is_next_call ev = true -> is_remove_call ev = false.
Proof. unfold is_next_call, is_remove_call. by destruct (ev_call ev). Qed.

Section Follows.

Context {R : Type}.
Variable api : Spotify R.
Variable fuel : nat.
Variable playlist_id : string.

Lemma add_try_follows_path tracks self o self' log :
  add_try api playlist_id tracks self = (o, self', log) ->
  add_try_path api playlist_id tracks self o self' log.
Proof.
  unfold add_try, try_except_SpotifyException, bind, remote, self_user,
    count_iadd, ret, raise. cbn.
  destruct (user_playlist_add_tracks api (spotify self) (user self) playlist_id tracks)
    as [r [e|results]] eqn:Hcall; cbn.
  - destruct e; cbn; intros [= <- <- <-];
      exact (append_raised api playlist_id tracks self r _ Hcall).
  - intros [= <- <- <-]. by apply append_returned.
Qed.

Lemma remove_follows_path n_tracks self o self' log :
  remove api fuel playlist_id n_tracks self = (o, self', log) ->
  remove_path api fuel playlist_id n_tracks self o self' log.
Proof.
  unfold remove, bind, remote, self_user, count_of, ret, raise. cbn.
  destruct (user_playlist api (spotify self) (user self) playlist_id "tracks,next,name")
    as [r [e|page]] eqn:Hfetch; cbn.
  { intros [= <- <- <-]. by apply fetch_raised. }
  destruct (Z.geb_spec (counter_get (playlist_count self) playlist_id + n_tracks)
              SONG_LIMIT) as [Hfull|Hroom]; cbn.
  - destruct (Z.gtb_spec
                (counter_get (playlist_count self) playlist_id + n_tracks - SONG_LIMIT)
                (counter_get (playlist_count self) playlist_id)) as [Hmany|Hfits]; cbn.
    + intros [= <- <- <-]. eapply guard_raised; eauto.
    + destruct (user_playlist_remove_all_occurrences_of_tracks api r (user self)
                  playlist_id _) as [r' [e|[]]] eqn:Hcall; cbn;
        intros [= <- <- <-].
      * eapply removal_raised; eauto.
      * eapply evicted; eauto.
  - destruct (Z.eqb_spec (counter_get (playlist_count self) playlist_id) 0)
      as [Hzero|Hsome]; cbn.
    + destruct (count_songs api fuel playlist_id page _) as [[o1 self1] log1] eqn:Hwalk.
      intros [= <- <- <-]. eapply walked; eauto.
    + intros [= <- <- <-]. eapply left_alone; eauto.
Qed.

Lemma add_follows_path tracks self o self' log :
  add api fuel playlist_id tracks self = (o, self', log) ->
  add_path api fuel playlist_id tracks self o self' log.
Proof.
  unfold add, bind.
  destruct (remove api fuel playlist_id (Z.of_nat (length tracks)) self)
    as [[[[]|e|] self1] log1] eqn:Hremove; apply remove_follows_path in Hremove.
  - destruct (add_try api playlist_id tracks self1) as [[o2 self2] log2] eqn:Htry.
    apply add_try_follows_path in Htry. intros [= <- <- <-].
    by eapply remove_returned.
  - intros [= <- <- <-]. by apply remove_raised.
  - intros [= <- <- <-]. by apply remove_cut_off.
Qed.

End Follows.

(** ** What every [add] keeps *)

Section Facts.

Context {R : Type}.
Variable api : Spotify R.

Lemma walk_entry_is_next fuel playlist_id tracks (self : SpotifyPlaylist R) o self' log ev :
  count_songs api fuel playlist_id tracks self = (o, self', log) ->
  ev ∈ log -> is_next_call ev = true.
Proof.
  intros Hwalk Hin. apply count_songs_next_only in Hwalk.
  rewrite Forall_forall in Hwalk. by apply Hwalk.
Qed.

Lemma remove_mono fuel playlist_id n_tracks (self : SpotifyPlaylist R) o self' log k :
  remove_path api fuel playlist_id n_tracks self o self' log ->
  counter_get (playlist_count self) k <= counter_get (playlist_count self') k.
Proof.
  destruct 1; cbn; try lia.
  match goal with Hw : count_songs _ _ _ _ _ = _ |- _ =>
    apply (count_songs_mono _ _ _ _ _ _ _ _ k) in Hw; cbn in Hw; lia end.
Qed.

Lemma add_try_mono playlist_id tracks (self : SpotifyPlaylist R) o self' log k :
  add_try_path api playlist_id tracks self o self' log ->
  counter_get (playlist_count self) k <= counter_get (playlist_count self') k.
Proof.
  destruct 1; cbn; [|lia]. apply counter_iadd_mono. lia.
Qed.

(** The cached counts never decrease: nothing in [add] subtracts. *)
Lemma add_mono fuel playlist_id tracks (self : SpotifyPlaylist R) o self' log k :
  add api fuel playlist_id tracks self = (o, self', log) ->
  counter_get (playlist_count self) k <= counter_get (playlist_count self') k.
Proof.
  intros Hrun. apply add_follows_path in Hrun.
  destruct Hrun as [e s l Hr|s l Hr|s1 l1 o s' l Hr Ht].
  - by eapply remove_mono.
  - by eapply remove_mono.
  - apply (remove_mono _ _ _ _ _ _ _ k) in Hr.
    apply (add_try_mono _ _ _ _ _ _ k) in Ht. lia.
Qed.

Lemma add_all_mono fuel reqs : forall (self self' : SpotifyPlaylist R) log k,
  add_all api fuel reqs self = (self', log) ->
  counter_get (playlist_count self) k <= counter_get (playlist_count self') k.
Proof.
  induction reqs as [|[playlist_id tracks] rest IH]; intros self self' log k; simpl.
  - intros [= <- <-]. lia.
  - destruct (add api fuel playlist_id tracks self) as [[o1 self1] log1] eqn:Hadd.
    destruct (add_all api fuel rest self1) as [self2 log2] eqn:Hrest.
    intros [= <- <-]. apply (add_mono _ _ _ _ _ _ _ k) in Hadd.
    apply (IH _ _ _ k) in Hrest. lia.
Qed.

(** An object whose counts are all non-negative keeps them so; the object
    starts with an empty [Counter]. *)
Lemma add_all_counts_nonneg fuel reqs (self self' : SpotifyPlaylist R) log k :
  playlist_count self = ∅ ->
  add_all api fuel reqs self = (self', log) ->
  0 <= counter_get (playlist_count self') k.
Proof.
  intros Hnew Hrun. apply (add_all_mono _ _ _ _ _ k) in Hrun.
  rewrite Hnew in Hrun. unfold counter_get at 1 in Hrun.
  by rewrite lookup_empty in Hrun.
Qed.

(** A successful [add] that went through the eviction leaves the cached
    count at [current + n]: the evicted tracks are not subtracted. *)
Lemma add_returned_count fuel playlist_id tracks (self : SpotifyPlaylist R) results self' log :
  add api fuel playlist_id tracks self = (Return results, self', log) ->
  counter_get (playlist_count self) playlist_id <> 0 ->
  counter_get (playlist_count self') playlist_id
  = counter_get (playlist_count self) playlist_id + Z.of_nat (length tracks).
Proof.
  intros Hrun Hsome. apply add_follows_path in Hrun.
  inversion Hrun as [| |s1 l1 o s' l Hr Ht]; subst.
  inversion Ht; subst; cbn. rewrite counter_get_iadd_eq.
  inversion Hr; subst; cbn; congruence.
Qed.


(** The list of a removal call is cut from the first page alone: the first
    [current + n - SONG_LIMIT] of its items, or all of them if it has fewer. *)
Lemma removal_list_from_first_page fuel playlist_id tracks (self : SpotifyPlaylist R)
    o self' log r page u p ids err :
  add api fuel playlist_id tracks self = (o, self', log) ->
  user_playlist api (spotify self) (user self) playlist_id "tracks,next,name"
    = (r, inr page) ->
  In (Event (remove_all_occurrences_call u p ids) err) log ->
  ids = take (Z.to_nat (counter_get (playlist_count self) playlist_id
                        + Z.of_nat (length tracks) - SONG_LIMIT)) (items page).
Proof.
  intros Hrun Hfetch Hin. apply add_follows_path in Hrun.
  assert (Hwalk : forall pg (s s1 : SpotifyPlaylist R) ow lw,
            count_songs api fuel playlist_id pg s = (ow, s1, lw) ->
            ~ In (Event (remove_all_occurrences_call u p ids) err) lw).
  { intros pg s s1 ow lw Hw Hev. apply list_elem_of_In in Hev.
    by apply (walk_entry_is_next _ _ _ _ _ _ _ _ Hw) in Hev. }
  assert (Hremove : forall ow s1 l1,
            remove_path api fuel playlist_id (Z.of_nat (length tracks)) self ow s1 l1 ->
            In (Event (remove_all_occurrences_call u p ids) err) l1 ->
            ids = take (Z.to_nat (counter_get (playlist_count self) playlist_id
                                  + Z.of_nat (length tracks) - SONG_LIMIT)) (items page)).
  { intros ow s1 l1 Hr Hev.
    inversion Hr; subst; cbn in Hev;
      try (destruct Hev as [Hev|[Hev|[]]] || destruct Hev as [Hev|[]]);
      try discriminate Hev.
    - assert (page0 = page) as -> by congruence.
      injection Hev as _ _ <- _. apply collect_take.
    - assert (page0 = page) as -> by congruence.
      injection Hev as _ _ <- _. apply collect_take.
    - destruct Hev as [Hev|Hev]; [discriminate Hev|]. by eapply Hwalk in Hev. }
  destruct Hrun as [e s l Hr|s l Hr|s1 l1 o s' l Hr Ht]; eauto.
  apply in_app_or in Hin as [Hin|Hin]; eauto.
  inversion Ht; subst; destruct Hin as [Hin|[]]; discriminate Hin.
Qed.

(** A playlist without an entry counts as empty when the eviction is decided:
    with fewer than [SONG_LIMIT] tracks to add, no removal call is issued,
    whatever the playlist holds. *)
Lemma add_untracked_never_evicts fuel playlist_id tracks (self : SpotifyPlaylist R)
    o self' log :
  playlist_count self !! playlist_id = None ->
  Z.of_nat (length tracks) < SONG_LIMIT ->
  add api fuel playlist_id tracks self = (o, self', log) ->
  List.filter is_remove_call log = [].
Proof.
  intros Hnone Hfew Hrun. apply add_follows_path in Hrun.
  assert (Hzero : counter_get (playlist_count self) playlist_id = 0)
    by (unfold counter_get; by rewrite Hnone).
  assert (Hwalk : forall pg (s s1 : SpotifyPlaylist R) ow lw,
            count_songs api fuel playlist_id pg s = (ow, s1, lw) ->
            List.filter is_remove_call lw = []).
  { intros pg s s1 ow lw Hw. apply count_songs_next_only in Hw.
    induction Hw as [|ev lw Hev _ IH]; [done|]. cbn.
    by rewrite (next_call_not_remove _ Hev). }
  destruct Hrun as [e s l Hr|s l Hr|s1 l1 o s' l Hr Ht].
  - inversion Hr; subst; try lia; cbn; eauto.
  - inversion Hr; subst; cbn; eauto.
  - rewrite List.filter_app.
    assert (List.filter is_remove_call l = []) as -> by (inversion Ht; by subst).
    rewrite app_nil_r. inversion Hr; subst; try lia; cbn; eauto.
Qed.

(** After a successful eviction, a failed append leaves the counts as they
    were before the [add]. *)
Lemma append_failure_after_eviction fuel playlist_id tracks (self : SpotifyPlaylist R)
    o self' log u p tracks' e :
  SONG_LIMIT <= counter_get (playlist_count self) playlist_id + Z.of_nat (length tracks) ->
  add api fuel playlist_id tracks self = (o, self', log) ->
  In (Event (add_tracks_call u p tracks') (Some e)) log ->
  o = Raise (surfaced e) /\ playlist_count self' = playlist_count self.
Proof.
  intros Hfull Hrun Hin. apply add_follows_path in Hrun.
  destruct Hrun as [e' s l Hr|s l Hr|s1 l1 o s' l Hr Ht].
  - inversion Hr; subst; try lia; cbn in Hin;
      try (destruct Hin as [Hin|[Hin|[]]] || destruct Hin as [Hin|[]]);
      discriminate Hin.
  - inversion Hr; subst; lia.
  - inversion Hr; subst; try lia. apply in_app_or in Hin as [Hin|Hin].
    + destruct Hin as [Hin|[Hin|[]]]; discriminate Hin.
    + inversion Ht; subst; destruct Hin as [Hin|[]]; [discriminate Hin|].
      by injection Hin as <- <- <- <-.
Qed.

End Facts.

(** ** The claims *)

(** C1 (no overflow of the tracked count).  The source evicts but never
    subtracts the evicted tracks from [playlist_count]: with 9999 tracks cached
    and two tracks to add, every remote call succeeding, [add] returns and the
    cached count is 10001, above [SONG_LIMIT]. *)
Theorem C1_tracked_count_passes_limit :
  let self := tracking 9999
    [page_response (inr (page_at 9999 100 0)); removed_response (inr tt);
     added_response (inr snapshot)] in
  let run := add replay 1 "p" [track 20000; track 20001] self in
  counter_get (playlist_count self) "p" <= SONG_LIMIT /\
  outcome_of run = Return snapshot /\
  log_of run =
    [Event (user_playlist_call "jeff" "p" "tracks,next,name") None;
     Event (remove_all_occurrences_call "jeff" "p" [track 0]) None;
     Event (add_tracks_call "jeff" "p" [track 20000; track 20001]) None] /\
  counter_get (playlist_count (object_of run)) "p" = 10001 /\
  SONG_LIMIT < counter_get (playlist_count (object_of run)) "p".
Proof. vm_compute. repeat split; congruence. Qed.

(** C2 (eviction succeeds, append fails).  Same start as above, the append
    answered by an HTTP 500.  The cached count stays at 9999 (the claim: 9998,
    the eviction of one track recorded), and what reaches the caller is the
    [TypeError] of calling [PlaylistError] with an argument, which does not
    carry the remote error's message. *)
Theorem C2_append_failure_after_eviction :
  let self := tracking 9999
    [page_response (inr (page_at 9999 100 0)); removed_response (inr tt);
     added_response (inl server_error)] in
  let run := add replay 1 "p" [track 20000; track 20001] self in
  log_of run =
    [Event (user_playlist_call "jeff" "p" "tracks,next,name") None;
     Event (remove_all_occurrences_call "jeff" "p" [track 0]) None;
     Event (add_tracks_call "jeff" "p" [track 20000; track 20001])
       (Some server_error)] /\
  counter_get (playlist_count (object_of run)) "p" = 9999 /\
  counter_get (playlist_count (object_of run)) "p" <> 9999 - 1 /\
  outcome_of run = Raise (TypeError "PlaylistError() takes no arguments") /\
  str (TypeError "PlaylistError() takes no arguments") <> str server_error.
Proof. vm_compute. repeat split; congruence. Qed.

(** C3 (cache arithmetic).  With 9990 tracks cached and 20 to add, ten tracks
    are evicted and the append succeeds; the new cached count is
    9990 + 20 = 10010, not 9990 - 10 + 20 = 10000. *)
Theorem C3_count_after_eviction_and_append :
  let self := tracking 9990
    [page_response (inr (page_at 9990 100 0)); removed_response (inr tt);
     added_response (inr snapshot)] in
  let tracks := tracks_from 20000 20 in
  let run := add replay 1 "p" tracks self in
  outcome_of run = Return snapshot /\
  log_of run =
    [Event (user_playlist_call "jeff" "p" "tracks,next,name") None;
     Event (remove_all_occurrences_call "jeff" "p" (tracks_from 0 10)) None;
     Event (add_tracks_call "jeff" "p" tracks) None] /\
  counter_get (playlist_count (object_of run)) "p" = 10010 /\
  counter_get (playlist_count (object_of run)) "p" <> 9990 - 10 + 20.
Proof. vm_compute. repeat split; congruence. Qed.

(** C4 (which tracks are evicted).  The eviction list is cut from the items of
    the first page only; [remove] does not fetch further pages for it.  With
    9999 tracks cached, pages of 100 and 150 tracks to add, 149 tracks are to
    be evicted and the removal call receives the 100 of the first page. *)
Theorem C4_eviction_stops_at_first_page :
  let self := tracking 9999
    [page_response (inr (page_at 9999 100 0)); removed_response (inr tt);
     added_response (inr snapshot)] in
  let tracks := tracks_from 20000 150 in
  let run := add replay 1 "p" tracks self in
  counter_get (playlist_count self) "p" + Z.of_nat (length tracks) - SONG_LIMIT = 149 /\
  log_of run =
    [Event (user_playlist_call "jeff" "p" "tracks,next,name") None;
     Event (remove_all_occurrences_call "jeff" "p" (tracks_from 0 100)) None;
     Event (add_tracks_call "jeff" "p" tracks) None] /\
  length (tracks_from 0 100) = 100%nat /\
  List.filter is_next_call (log_of run) = [].
Proof. vm_compute. repeat split. Qed.

(** C5 (capacity guard).  With 10001 tracks to add the guard fires: no
    removal or append call is issued and the cache is unchanged, but the
    exception that leaves [add] is the [TypeError] of calling [PlaylistError]
    with an argument, the same one an append failure ends in. *)
Theorem C5_guard_raises_TypeError :
  let self := tracking 2 [page_response (inr (page_at 2 100 0))] in
  let run := add replay 1 "p" (replicate (Z.to_nat 10001) (track 20000)) self in
  outcome_of run = Raise (TypeError "PlaylistError() takes no arguments") /\
  log_of run = [Event (user_playlist_call "jeff" "p" "tracks,next,name") None] /\
  playlist_count (object_of run) = playlist_count self.
Proof. vm_compute. repeat split. Qed.

(** C6 (size of an untracked playlist).  The test for eviction reads the
    [Counter] before any walk, so an untracked playlist counts as empty: for a
    playlist of 9999 tracks nobody has counted yet and two tracks to add, no
    removal call is issued; the walk comes after the decision (99 next-page
    calls), and the append brings the cached count to 10001. *)
Theorem C6_untracked_playlist_decided_as_empty :
  let self := fresh (pages 9999 100 100 ++ [added_response (inr snapshot)]) in
  let run := add replay 100 "p" [track 20000; track 20001] self in
  playlist_count self !! "p" = None /\
  outcome_of run = Return snapshot /\
  List.filter is_remove_call (log_of run) = [] /\
  length (List.filter is_next_call (log_of run)) = 99%nat /\
  playlist_count (object_of run) !! "p" = Some 10001.
Proof. cbv zeta. repeat split; vm_compute; reflexivity. Qed.

(** C7 (the walk is not repeated), as the source has it.  The walk is guarded
    by [playlist_count[playlist_id] == 0], not by the presence of an entry:
    once a playlist has a positive cached count, then after any further [add]
    calls, an [add] against it issues no next-page call, is not cut off, and
    changes the counts by the [+= len(tracks)] of a successful append at most. *)
Theorem C7_no_walk_once_count_positive {R} (api : Spotify R) fuel reqs
    (self self1 : SpotifyPlaylist R) log1 playlist_id tracks o self2 log :
  0 < counter_get (playlist_count self) playlist_id ->
  add_all api fuel reqs self = (self1, log1) ->
  add api fuel playlist_id tracks self1 = (o, self2, log) ->
  List.filter is_next_call log = [] /\
  o <> Timeout /\
  (playlist_count self2 = playlist_count self1 \/
   playlist_count self2
   = counter_iadd (playlist_count self1) playlist_id (Z.of_nat (length tracks))).
Proof.
  intros Hpos Hbefore Hrun.
  apply (add_all_mono _ _ _ _ _ _ playlist_id) in Hbefore.
  apply add_follows_path in Hrun.
  destruct Hrun as [e s l Hr|s l Hr|s1 l1 o s' l Hr Ht].
  - inversion Hr; subst; cbn; try lia; auto.
  - inversion Hr; subst; cbn; lia.
  - inversion Hr; subst; try lia; inversion Ht; subst; cbn; auto.
Qed.

(** C7, witness: 120 tracks cached, an [add] in between, then the [add]. *)
Lemma C7_no_walk_witness :
  let self := tracking 120
    [page_response (inr (page_at 120 100 0)); added_response (inr snapshot);
     page_response (inr (page_at 121 100 0)); added_response (inr snapshot)] in
  let self1 := fst (add_all replay 3 [("p", [track 500])] self) in
  let run := add replay 3 "p" [track 501] self1 in
  List.filter is_next_call (log_of run) = [] /\
  outcome_of run <> Timeout /\
  (playlist_count (object_of run) = playlist_count self1 \/
   playlist_count (object_of run)
   = counter_iadd (playlist_count self1) "p" (Z.of_nat (length [track 501]))).
Proof.
  intros self self1 run.
  apply (C7_no_walk_once_count_positive replay 3 [("p", [track 500])] self self1
           (snd (add_all replay 3 [("p", [track 500])] self)) "p" [track 501]
           (outcome_of run) (object_of run) (log_of run)).
  - vm_compute. reflexivity.
  - vm_compute. reflexivity.
  - vm_compute. reflexivity.
Defined.

(** C7, as stated, fails when the established size is 0.  A first [add]
    finds the playlist empty and its append is refused, which leaves the entry
    [0]; by the next [add] the playlist holds 150 tracks, and the walk runs
    again, next-page call included. *)
Lemma C7_walk_repeated_after_zero :
  let self := fresh
    [page_response (inr (page_at 0 100 0)); added_response (inl server_error);
     page_response (inr (page_at 150 100 0)); page_response (inr (page_at 150 100 100));
     added_response (inr snapshot)] in
  let self1 := fst (add_all replay 3 [("p", [track 500])] self) in
  let run := add replay 3 "p" [track 501] self1 in
  ~ (is_Some (playlist_count self1 !! "p") ->
     List.filter is_next_call (log_of run) = [] /\
     (playlist_count (object_of run) = playlist_count self1 \/
      playlist_count (object_of run)
      = counter_iadd (playlist_count self1) "p" (Z.of_nat (length [track 501])))).
Proof.
  intros self self1 run Hclaim.
  assert (Hsome : playlist_count self1 !! "p" = Some 0) by (vm_compute; reflexivity).
  destruct Hclaim as [Hnext _]; [by eexists|].
  vm_compute in Hnext. discriminate Hnext.
Qed.

(** C8 (adjusting an untracked playlist), as the source has it.  [+=] on a
    [Counter] reads a missing key as 0: for a playlist without an entry it
    returns normally and creates the entry with the delta as its value. *)
Theorem C8_adjust_creates_entry {R} (self : SpotifyPlaylist R) playlist_id d :
  playlist_count self !! playlist_id = None ->
  count_iadd playlist_id d self
  = (Return tt,
     Self (user self) (spotify self) (<[playlist_id := d]> (playlist_count self)),
     []).
Proof.
  intros Hnone. unfold count_iadd, counter_iadd, counter_get.
  by rewrite Hnone.
Qed.

(** C8, witness: the object right after [__init__]. *)
Lemma C8_adjust_witness :
  count_iadd "p" 2 (fresh [])
  = (Return tt, Self "jeff" [] (<["p" := 2]> ∅), []).
Proof.
  apply (C8_adjust_creates_entry (fresh []) "p" 2). reflexivity.
Defined.

(** C8, as stated, fails: no exception is raised for an untracked playlist. *)
Lemma C8_adjust_does_not_fail :
  ~ (playlist_count (fresh []) !! "p" = None ->
     exists e, outcome_of (count_iadd "p" 2 (fresh [])) = Raise e).
Proof.
  intros Hclaim. destruct Hclaim as [e He]; [reflexivity|]. discriminate He.
Qed.

(** C9 (removal failure).  When the removal call of an [add] raises, that
    exception is the outcome of the [add], and the counts are as before. *)
Theorem C9_removal_failure_keeps_cache {R} (api : Spotify R) fuel playlist_id tracks
    (self : SpotifyPlaylist R) o self' log ev e :
  add api fuel playlist_id tracks self = (o, self', log) ->
  In ev log -> is_remove_call ev = true -> ev_error ev = Some e ->
  o = Raise e /\ playlist_count self' = playlist_count self.
Proof.
  intros Hrun Hin Hrm Herr. apply add_follows_path in Hrun.
  assert (Hwalk : forall page (s s1 : SpotifyPlaylist R) ow lw,
            count_songs api fuel playlist_id page s = (ow, s1, lw) -> ~ In ev lw).
  { intros page s s1 ow lw Hw Hev. apply list_elem_of_In in Hev.
    apply (walk_entry_is_next _ _ _ _ _ _ _ _ _ Hw), next_call_not_remove in Hev.
    congruence. }
  destruct Hrun as [e' s l Hr|s l Hr|s1 l1 o s' l Hr Ht].
  - inversion Hr; subst; cbn in Hin;
      try (destruct Hin as [<-|[<-|[]]] || destruct Hin as [<-|[]]);
      try discriminate; try (cbn in Herr; by simplify_eq).
    destruct Hin as [<-|Hin]; [discriminate|]. by eapply Hwalk in Hin.
  - inversion Hr; subst. destruct Hin as [<-|Hin]; [discriminate|].
    by eapply Hwalk in Hin.
  - apply in_app_or in Hin as [Hin|Hin].
    + inversion Hr; subst; cbn in Hin;
        try (destruct Hin as [<-|[<-|[]]] || destruct Hin as [<-|[]]);
        try discriminate.
      destruct Hin as [<-|Hin]; [discriminate|]. by eapply Hwalk in Hin.
    + inversion Ht; subst; destruct Hin as [<-|[]]; discriminate.
Qed.

(** C9, witness: 9999 tracks cached, two to add, the removal call refused. *)
Lemma C9_removal_failure_witness :
  let self := tracking 9999
    [page_response (inr (page_at 9999 100 0)); removed_response (inl server_error)] in
  let run := add replay 1 "p" [track 20000; track 20001] self in
  outcome_of run = Raise server_error /\
  playlist_count (object_of run) = playlist_count self.
Proof.
  intros self run.
  apply (C9_removal_failure_keeps_cache replay 1 "p" [track 20000; track 20001] self
           (outcome_of run) (object_of run) (log_of run)
           (Event (remove_all_occurrences_call "jeff" "p" [track 0]) (Some server_error))
           server_error).
  - vm_compute. reflexivity.
  - vm_compute. right. left. reflexivity.
  - reflexivity.
  - reflexivity.
Defined.

(** C10 (exactly at the limit).  When the cached count (non-negative, as
    every count the object ever holds) plus the number of tracks to add is
    [SONG_LIMIT], the eviction branch runs with nothing to evict: right after
    the first page is fetched a removal call with an empty list is issued, and
    the counting walk is not run, also for a playlist without an entry, which
    gets one only from the append. *)
Theorem C10_exact_limit_removes_nothing {R} (api : Spotify R) fuel playlist_id tracks
    (self : SpotifyPlaylist R) o self' log r page :
  counter_get (playlist_count self) playlist_id + Z.of_nat (length tracks) = SONG_LIMIT ->
  0 <= counter_get (playlist_count self) playlist_id ->
  user_playlist api (spotify self) (user self) playlist_id "tracks,next,name"
    = (r, inr page) ->
  add api fuel playlist_id tracks self = (o, self', log) ->
  (exists err rest,
     log = Event (user_playlist_call (user self) playlist_id "tracks,next,name") None
           :: Event (remove_all_occurrences_call (user self) playlist_id []) err
           :: rest) /\
  List.filter is_next_call log = [] /\
  o <> Timeout /\
  (playlist_count self' = playlist_count self \/
   playlist_count self'
   = counter_iadd (playlist_count self) playlist_id (Z.of_nat (length tracks))) /\
  (playlist_count self !! playlist_id = None ->
   playlist_count self' !! playlist_id = None \/
   playlist_count self' !! playlist_id = Some SONG_LIMIT).
Proof.
  intros Hsum Hpos Hfetch Hrun. apply add_follows_path in Hrun.
  assert (Hentry : playlist_count self !! playlist_id = None ->
            counter_iadd (playlist_count self) playlist_id (Z.of_nat (length tracks))
              !! playlist_id = Some SONG_LIMIT).
  { intros Hnone. unfold counter_iadd. rewrite lookup_insert_eq. f_equal.
    unfold counter_get in *. rewrite Hnone in *. simpl in *. lia. }
  destruct Hrun as [e s l Hr|s l Hr|s1 l1 o s' l Hr Ht];
    inversion Hr; subst; try lia; try congruence.
  - rewrite Hsum, Z.sub_diag, collect_zero. cbn. eauto 10.
  - rewrite Hsum, Z.sub_diag, collect_zero.
    inversion Ht; subst; cbn; eauto 10.
Qed.

(** C10, witness: 9998 tracks cached and two to add. *)
Lemma C10_exact_limit_witness :
  let self := tracking 9998
    [page_response (inr (page_at 9998 100 0)); removed_response (inr tt);
     added_response (inr snapshot)] in
  let run := add replay 1 "p" [track 20000; track 20001] self in
  (exists err rest,
     log_of run = Event (user_playlist_call "jeff" "p" "tracks,next,name") None
                  :: Event (remove_all_occurrences_call "jeff" "p" []) err
                  :: rest) /\
  List.filter is_next_call (log_of run) = [] /\
  outcome_of run <> Timeout /\
  (playlist_count (object_of run) = playlist_count self \/
   playlist_count (object_of run)
   = counter_iadd (playlist_count self) "p" (Z.of_nat (length [track 20000; track 20001]))) /\
  (playlist_count self !! "p" = None ->
   playlist_count (object_of run) !! "p" = None \/
   playlist_count (object_of run) !! "p" = Some SONG_LIMIT).
Proof.
  intros self run.
  apply (C10_exact_limit_removes_nothing replay 1 "p" [track 20000; track 20001] self
           (outcome_of run) (object_of run) (log_of run)
           [removed_response (inr tt); added_response (inr snapshot)]
           (page_at 9998 100 0)).
  - vm_compute. reflexivity.
  - vm_compute. discriminate.
  - reflexivity.
  - vm_compute. reflexivity.
Defined.

(** * Further properties of the code *)

(** ** The counting walk *)

Lemma counter_iadd_iadd (c : gmap string Z) k a b :
  counter_iadd (counter_iadd c k a) k b = counter_iadd c k (a + b).
Proof.
  unfold counter_iadd, counter_get. rewrite lookup_insert_eq. simpl.
  rewrite insert_insert_eq. f_equal. lia.
Qed.

Lemma counter_iadd_untracked (c : gmap string Z) k d :
  counter_get c k = 0 -> counter_iadd c k d = <[k := d]> c.
Proof. intros Hzero. unfold counter_iadd. by rewrite Hzero. Qed.

Lemma last_cons_default {A} (l : list A) : forall a d d',
  List.last (a :: l) d = List.last (a :: l) d'.
Proof.
  induction l as [|b l IH]; intros a d d'; [done|].
  change (List.last (b :: l) d = List.last (b :: l) d'). apply IH.
Qed.

Section WalkRuns.

Context {R : Type}.
Variable api : Spotify R.

(** The walk reads every page.  When the remote serves the pages [rest]
    after the first one and the last has no [next], the loop returns, has
    issued one [next] call per further page, and has added the [total] of
    every page, the first included, to the count of the playlist. *)
Lemma count_songs_served r page rest r' :
  served api r page rest r' ->
  forall fuel playlist_id u c,
  (length rest < fuel)%nat ->
  count_songs api fuel playlist_id page (Self u r c)
  = (Return tt,
     Self u r' (counter_iadd c playlist_id (total_of (page :: rest))),
     walk_log page rest).
Proof.
  induction 1 as [r page Hlast|r page r1 page1 rest r' Hmore Hnext _ IH];
    intros fuel playlist_id u c Hfuel;
    (destruct fuel as [|fuel]; [simpl in Hfuel; lia|]);
    simpl; unfold bind, count_iadd, remote, ret; cbn.
  - rewrite Hlast. cbn. by rewrite Z.add_0_r.
  - rewrite Hmore. cbn. rewrite Hnext. cbn.
    rewrite IH by (simpl in Hfuel; lia). cbn.
    by rewrite counter_iadd_iadd.
Qed.

(** An interrupted walk keeps what it has counted.  When [next] raises
    after the pages [rest], the loop ends in that exception and the count of
    the playlist has grown by the totals of the pages read so far. *)
Lemma count_songs_broken r page rest e r' :
  broken api r page rest e r' ->
  forall fuel playlist_id u c,
  (length rest < fuel)%nat ->
  count_songs api fuel playlist_id page (Self u r c)
  = (Raise e,
     Self u r' (counter_iadd c playlist_id (total_of (page :: rest))),
     walk_log page rest ++ [Event (next_call (List.last rest page)) (Some e)]).
Proof.
  induction 1 as [r page e r' Hmore Hnext|r page r1 page1 rest e r' Hmore Hnext _ IH];
    intros fuel playlist_id u c Hfuel;
    (destruct fuel as [|fuel]; [simpl in Hfuel; lia|]);
    simpl count_songs; unfold bind, count_iadd, remote, ret; cbn.
  - rewrite Hmore. cbn. rewrite Hnext. cbn. by rewrite Z.add_0_r.
  - rewrite Hmore. cbn. rewrite Hnext. cbn.
    rewrite IH by (simpl in Hfuel; lia). cbn.
    rewrite counter_iadd_iadd. repeat f_equal.
    destruct rest as [|page2 rest]; [done|]. apply last_cons_default.
Qed.

(** The walk writes the count of its own playlist only. *)
Lemma count_songs_frame fuel : forall playlist_id tracks (self : SpotifyPlaylist R)
    o self' log q,
  count_songs api fuel playlist_id tracks self = (o, self', log) ->
  user self' = user self /\
  (q <> playlist_id -> playlist_count self' !! q = playlist_count self !! q).
Proof.
  induction fuel as [|fuel IH]; intros playlist_id tracks self o self' log q; simpl.
  - unfold timeout. by intros [= <- <- <-].
  - unfold bind, count_iadd, remote, ret.
    destruct (truthy (next tracks)); cbn.
    + destruct (spotify_next api (spotify self) tracks) as [r [e|tracks']]; cbn.
      * intros [= <- <- <-]. cbn. split; [done|]. intros Hq.
        unfold counter_iadd. by rewrite lookup_insert_ne.
      * destruct (count_songs api fuel playlist_id tracks' _) as [[o1 s1] l1] eqn:Hrec.
        intros [= <- <- <-]. apply (IH _ _ _ _ _ _ q) in Hrec as [Hu Hc]. cbn in *.
        split; [done|]. intros Hq. rewrite Hc by done.
        unfold counter_iadd. by rewrite lookup_insert_ne.
    + intros [= <- <- <-]. cbn. split; [done|]. intros Hq.
      unfold counter_iadd. by rewrite lookup_insert_ne.
Qed.

(** The walk has no bound of its own: it ends only when a page comes without
    [next].  Against a remote whose [next] keeps answering a page that links
    on, no number of steps is enough. *)
Theorem walk_has_no_bound page :
  truthy (next page) = true ->
  (forall r, exists r', spotify_next api r page = (r', inr page)) ->
  forall fuel playlist_id (self : SpotifyPlaylist R),
    outcome_of (count_songs api fuel playlist_id page self) = Timeout.
Proof.
  intros Hmore Hloop fuel playlist_id.
  induction fuel as [|fuel IH]; intros self; [done|].
  simpl. unfold bind, count_iadd, remote, ret. rewrite Hmore. cbn.
  destruct (Hloop (spotify self)) as [r' ->]. cbn.
  specialize (IH (Self (user self) r'
                    (counter_iadd (playlist_count self) playlist_id
                       (Z.of_N (total page))))).
  destruct (count_songs api fuel playlist_id page _) as [[o1 s1] l1].
  cbn in IH. by subst.
Qed.

(** [remove] on a playlist whose count reads 0, with room for the batch. *)
Lemma remove_walks fuel playlist_id n_tracks u r c r1 page :
  counter_get c playlist_id = 0 ->
  n_tracks < SONG_LIMIT ->
  user_playlist api r u playlist_id "tracks,next,name" = (r1, inr page) ->
  remove api fuel playlist_id n_tracks (Self u r c)
  = let '(o, self', log) := count_songs api fuel playlist_id page (Self u r1 c) in
    (o, self',
     Event (user_playlist_call u playlist_id "tracks,next,name") None :: log).
Proof.
  intros Hzero Hroom Hfetch.
  unfold remove, bind, remote, self_user, count_of, ret. cbn.
  rewrite Hfetch. cbn. rewrite Hzero.
  destruct (Z.geb_spec (0 + n_tracks) SONG_LIMIT) as [Hfull|_]; [lia|]. cbn.
  rewrite Hzero. cbn.
  by destruct (count_songs api fuel playlist_id page _) as [[o1 self1] log1].
Qed.

(** [add] once [remove] has returned and the append call succeeds. *)
Lemma add_after_remove fuel playlist_id tracks (self self1 : SpotifyPlaylist R)
    log1 r results :
  remove api fuel playlist_id (Z.of_nat (length tracks)) self = (Return tt, self1, log1) ->
  user_playlist_add_tracks api (spotify self1) (user self1) playlist_id tracks
    = (r, inr results) ->
  add api fuel playlist_id tracks self
  = (Return results,
     Self (user self1) r
       (counter_iadd (playlist_count self1) playlist_id (Z.of_nat (length tracks))),
     log1 ++ [Event (add_tracks_call (user self1) playlist_id tracks) None]).
Proof.
  intros Hremove Hadd. unfold add, bind. rewrite Hremove.
  unfold add_try, try_except_SpotifyException, bind, remote, self_user,
    count_iadd, ret. cbn. rewrite Hadd. by cbn.
Qed.

(** The first [add] against a playlist that has not been counted, with fewer
    than [SONG_LIMIT] tracks to add: the first page is fetched, every further
    page is read with [next], the batch is appended, and the playlist is
    cached with the sum of the page totals plus the batch. *)
Theorem first_add_counts_then_appends fuel playlist_id tracks u r c
    r1 page rest r2 r3 results :
  counter_get c playlist_id = 0 ->
  Z.of_nat (length tracks) < SONG_LIMIT ->
  user_playlist api r u playlist_id "tracks,next,name" = (r1, inr page) ->
  served api r1 page rest r2 ->
  (length rest < fuel)%nat ->
  user_playlist_add_tracks api r2 u playlist_id tracks = (r3, inr results) ->
  add api fuel playlist_id tracks (Self u r c)
  = (Return results,
     Self u r3 (<[playlist_id := total_of (page :: rest) + Z.of_nat (length tracks)]> c),
     Event (user_playlist_call u playlist_id "tracks,next,name") None
     :: walk_log page rest
     ++ [Event (add_tracks_call u playlist_id tracks) None]).
Proof.
  intros Hzero Hroom Hfetch Hserved Hfuel Hadd.
  pose proof (remove_walks fuel playlist_id _ u r c r1 page Hzero Hroom Hfetch) as Hremove.
  rewrite (count_songs_served _ _ _ _ Hserved) in Hremove by done.
  rewrite (add_after_remove _ _ _ _ _ _ _ _ Hremove Hadd). cbn.
  by rewrite counter_iadd_iadd, counter_iadd_untracked.
Qed.

(** The same first [add] when the walk is interrupted: the exception of the
    [next] call leaves [add] as it is, nothing is appended, and the playlist
    stays cached with the totals of the pages read before the failure. *)
Theorem first_add_interrupted_walk fuel playlist_id tracks u r c
    r1 page rest e r2 :
  counter_get c playlist_id = 0 ->
  Z.of_nat (length tracks) < SONG_LIMIT ->
  user_playlist api r u playlist_id "tracks,next,name" = (r1, inr page) ->
  broken api r1 page rest e r2 ->
  (length rest < fuel)%nat ->
  add api fuel playlist_id tracks (Self u r c)
  = (Raise e,
     Self u r2 (<[playlist_id := total_of (page :: rest)]> c),
     Event (user_playlist_call u playlist_id "tracks,next,name") None
     :: walk_log page rest
     ++ [Event (next_call (List.last rest page)) (Some e)]).
Proof.
  intros Hzero Hroom Hfetch Hbroken Hfuel.
  pose proof (remove_walks fuel playlist_id _ u r c r1 page Hzero Hroom Hfetch) as Hremove.
  rewrite (count_songs_broken _ _ _ _ _ Hbroken) in Hremove by done.
  unfold add, bind. rewrite Hremove. by rewrite counter_iadd_untracked.
Qed.

(** [add] writes the count of its own playlist only, and never the user. *)
Theorem add_leaves_other_playlists fuel playlist_id tracks (self : SpotifyPlaylist R)
    o self' log q :
  add api fuel playlist_id tracks self = (o, self', log) ->
  q <> playlist_id ->
  user self' = user self /\
  playlist_count self' !! q = playlist_count self !! q.
Proof.
  intros Hrun Hq. apply add_follows_path in Hrun.
  assert (Hremove : forall ow s1 l1,
            remove_path api fuel playlist_id (Z.of_nat (length tracks)) self ow s1 l1 ->
            user s1 = user self /\ playlist_count s1 !! q = playlist_count self !! q).
  { intros ow s1 l1 Hr. inversion Hr; subst; cbn; try done.
    match goal with Hw : count_songs _ _ _ _ _ = _ |- _ =>
      apply (count_songs_frame _ _ _ _ _ _ _ q) in Hw as [Hu Hc] end.
    cbn in *. auto. }
  destruct Hrun as [e s l Hr|s l Hr|s1 l1 o s' l Hr Ht]; eauto.
  apply Hremove in Hr as [Hu Hc].
  inversion Ht; subst; cbn; split; try done.
  unfold counter_iadd. by rewrite lookup_insert_ne.
Qed.

(** Over any sequence of [add] calls, whatever their outcomes, no cached
    count ever decreases. *)
Theorem cached_counts_never_decrease fuel reqs (self self' : SpotifyPlaylist R) log :
  add_all api fuel reqs self = (self', log) ->
  forall k, counter_get (playlist_count self) k <= counter_get (playlist_count self') k.
Proof. intros Hrun k. by eapply add_all_mono. Qed.

End WalkRuns.

(** ** The remote calls of one [add] *)

Lemma failed_call_is_last (pre pre' post : list event) ev x :
  Forall (fun ev => ev_error ev = None) pre' ->
  pre ++ ev :: post = pre' ++ [x] ->
  ev_error ev <> None ->
  post = [] /\ pre = pre' /\ ev = x.
Proof.
  intros Hok Heq Hfailed. destruct post as [|y post _] using rev_ind.
  - apply app_inj_tail in Heq as [-> ->]. done.
  - rewrite app_comm_cons, app_assoc in Heq.
    apply app_inj_tail in Heq as [<- _].
    apply Forall_app in Hok as [_ Hok]. apply Forall_cons in Hok as [Hok _].
    congruence.
Qed.

Lemma next_call_not_add ev : is_next_call ev = true -> is_add_call ev = false.
Proof. unfold is_next_call, is_add_call. by destruct (ev_call ev). Qed.

Lemma next_calls_filtered (f : event -> bool) (log : list event) :
  (forall ev, is_next_call ev = true -> f ev = false) ->
  Forall (fun ev => is_next_call ev = true) log ->
  List.filter f log = [].
Proof.
  intros Hf Hlog. induction Hlog as [|ev log Hev _ IH]; [done|].
  cbn. by rewrite (Hf ev Hev).
Qed.

Section Calls.

Context {R : Type}.
Variable api : Spotify R.

(** The calls of a walk all succeed, except the last one when it raises. *)
Lemma count_songs_shape fuel : forall playlist_id tracks (self : SpotifyPlaylist R)
    o self' log,
  count_songs api fuel playlist_id tracks self = (o, self', log) ->
  match o with
  | Raise e => exists pre c,
      log = pre ++ [Event c (Some e)] /\ Forall (fun ev => ev_error ev = None) pre
  | _ => Forall (fun ev => ev_error ev = None) log
  end.
Proof.
  induction fuel as [|fuel IH]; intros playlist_id tracks self o self' log; simpl.
  - unfold timeout. intros [= <- <- <-]. constructor.
  - unfold bind, count_iadd, remote, ret.
    destruct (truthy (next tracks)); cbn.
    + destruct (spotify_next api (spotify self) tracks) as [r [e|tracks']]; cbn.
      * intros [= <- <- <-]. exists [], (next_call tracks). by split.
      * destruct (count_songs api fuel playlist_id tracks' _) as [[o1 s1] l1] eqn:Hrec.
        intros [= <- <- <-]. apply IH in Hrec.
        destruct o1 as [[]|e|].
        -- by constructor.
        -- destruct Hrec as (pre & c & -> & Hpre).
           exists (Event (next_call tracks) None :: pre), c. split; [done|].
           by constructor.
        -- by constructor.
    + intros [= <- <- <-]. constructor.
Qed.

(** Either every call of an [add] succeeded, or exactly the last one raised
    and decides the exception that leaves [add]. *)
Lemma add_shape fuel playlist_id tracks (self : SpotifyPlaylist R) o self' log :
  add api fuel playlist_id tracks self = (o, self', log) ->
  Forall (fun ev => ev_error ev = None) log \/
  exists pre c e,
    log = pre ++ [Event c (Some e)] /\
    Forall (fun ev => ev_error ev = None) pre /\
    o = Raise (if is_add_call (Event c (Some e)) then surfaced e else e).
Proof.
  intros Hrun. apply add_follows_path in Hrun.
  assert (Hremove : forall ow s1 l1,
            remove_path api fuel playlist_id (Z.of_nat (length tracks)) self ow s1 l1 ->
            match ow with
            | Raise e =>
                Forall (fun ev => ev_error ev = None) l1 \/
                exists pre c,
                  l1 = pre ++ [Event c (Some e)] /\
                  Forall (fun ev => ev_error ev = None) pre /\
                  is_add_call (Event c (Some e)) = false
            | _ => Forall (fun ev => ev_error ev = None) l1
            end).
  { intros ow s1 l1 Hr. inversion Hr; subst.
    - right. exists [], (user_playlist_call (user self) playlist_id "tracks,next,name").
      by repeat split.
    - left. by repeat constructor.
    - right. eexists [_], _. by repeat split; repeat constructor.
    - by repeat constructor.
    - match goal with H : count_songs _ _ _ _ _ = _ |- _ => rename H into Hw end.
      pose proof (count_songs_next_only _ _ _ _ _ _ _ _ Hw) as Hnext.
      apply count_songs_shape in Hw.
      destruct ow as [[]|e|]; try by constructor.
      right. destruct Hw as (pre & c & -> & Hpre).
      eexists (_ :: pre), c. repeat split; [by constructor|].
      apply Forall_app in Hnext as [_ Hnext]. apply Forall_cons in Hnext as [Hnext _].
      by apply next_call_not_add.
    - by repeat constructor. }
  destruct Hrun as [e s l Hr|s l Hr|s1 l1 o s' l Hr Ht].
  - apply Hremove in Hr as [Hok|(pre & c & -> & Hpre & Hc)]; [by left|].
    right. exists pre, c, e. by rewrite Hc.
  - left. by apply Hremove in Hr.
  - apply Hremove in Hr. inversion Ht; subst.
    + left. apply Forall_app. split; [done|]. by repeat constructor.
    + right. by eexists l1, _, e.
Qed.

(** A successful [add]: every remote call it issued succeeded, and the last
    of them is the append of exactly the given tracks. *)
Theorem add_returns_after_clean_calls fuel playlist_id tracks (self : SpotifyPlaylist R)
    results self' log :
  add api fuel playlist_id tracks self = (Return results, self', log) ->
  Forall (fun ev => ev_error ev = None) log /\
  exists pre, log = pre ++ [Event (add_tracks_call (user self) playlist_id tracks) None].
Proof.
  intros Hrun. split.
  - apply add_shape in Hrun as [Hok|(pre & c & e & _ & _ & Ho)]; [done|discriminate Ho].
  - apply add_follows_path in Hrun.
    inversion Hrun as [| |s1 l1 o s' l Hr Ht]; subst.
    assert (Hu : user s1 = user self).
    { inversion Hr; subst; try done.
      match goal with Hw : count_songs _ _ _ _ _ = _ |- _ =>
        by apply (count_songs_frame _ _ _ _ _ _ _ _ playlist_id) in Hw as [Hu _] end. }
    inversion Ht; subst. rewrite Hu. by eexists.
Qed.

(** No failure of the remote is swallowed and none is followed by another
    call: a call that raised is the last call of its [add], every call before
    it succeeded, and [add] raises; the exception is the remote's own, except
    for a [SpotifyException] of the append call, which is replaced. *)
Theorem failed_call_ends_add fuel playlist_id tracks (self : SpotifyPlaylist R)
    o self' log pre ev post e :
  add api fuel playlist_id tracks self = (o, self', log) ->
  log = pre ++ ev :: post ->
  ev_error ev = Some e ->
  post = [] /\
  Forall (fun ev => ev_error ev = None) pre /\
  o = Raise (if is_add_call ev then surfaced e else e).
Proof.
  intros Hrun -> Herr. apply add_shape in Hrun as [Hok|(pre' & c & e' & Heq & Hpre & ->)].
  - apply Forall_app in Hok as [_ Hok]. apply Forall_cons in Hok as [Hok _]. congruence.
  - apply failed_call_is_last in Heq as (-> & -> & ->); [|done|congruence].
    cbn in Herr. by simplify_eq.
Qed.


(** The calls of one [add]: the first page is fetched first and only once, at
    most one removal and at most one append are issued, and a removal never
    comes with a page walk. *)
Theorem add_call_budget fuel playlist_id tracks (self : SpotifyPlaylist R) o self' log :
  add api fuel playlist_id tracks self = (o, self', log) ->
  exists err rest,
    log = Event (user_playlist_call (user self) playlist_id "tracks,next,name") err
          :: rest /\
    List.filter is_user_playlist_call rest = [] /\
    (length (List.filter is_remove_call rest) <= 1)%nat /\
    (length (List.filter is_add_call rest) <= 1)%nat /\
    (List.filter is_next_call rest = [] \/ List.filter is_remove_call rest = []).
Proof.
  intros Hrun. apply add_follows_path in Hrun.
  assert (Hwalk : forall pg (s s1 : SpotifyPlaylist R) ow lw (f : event -> bool),
            count_songs api fuel playlist_id pg s = (ow, s1, lw) ->
            (forall ev, is_next_call ev = true -> f ev = false) ->
            List.filter f lw = []).
  { intros pg s s1 ow lw f Hw Hf. apply count_songs_next_only in Hw.
    by apply next_calls_filtered. }
  assert (Hf1 : forall ev, is_next_call ev = true -> is_user_playlist_call ev = false).
  { intros ev. unfold is_next_call, is_user_playlist_call. by destruct (ev_call ev). }
  assert (Hremove : forall ow s1 l1,
            remove_path api fuel playlist_id (Z.of_nat (length tracks)) self ow s1 l1 ->
            exists err rest,
              l1 = Event (user_playlist_call (user self) playlist_id "tracks,next,name") err
                   :: rest /\
              List.filter is_user_playlist_call rest = [] /\
              (length (List.filter is_remove_call rest) <= 1)%nat /\
              List.filter is_add_call rest = [] /\
              (List.filter is_next_call rest = [] \/ List.filter is_remove_call rest = [])).
  { intros ow s1 l1 Hr. inversion Hr; subst; eexists _, _; (split; [done|]); cbn;
      try (repeat split; auto; lia).
    match goal with Hw : count_songs _ _ _ _ _ = _ |- _ =>
      rewrite (Hwalk _ _ _ _ _ _ Hw Hf1),
        (Hwalk _ _ _ _ _ _ Hw next_call_not_remove),
        (Hwalk _ _ _ _ _ _ Hw next_call_not_add) end.
    repeat split; auto. }
  destruct Hrun as [e s l Hr|s l Hr|s1 l1 o s' l Hr Ht].
  - apply Hremove in Hr as (err & rest & -> & H1 & H2 & H3 & H4).
    exists err, rest. rewrite H3. repeat split; auto.
  - apply Hremove in Hr as (err & rest & -> & H1 & H2 & H3 & H4).
    exists err, rest. rewrite H3. repeat split; auto.
  - apply Hremove in Hr as (err & rest & -> & H1 & H2 & H3 & H4).
    exists err, (rest ++ l). split; [done|].
    rewrite !List.filter_app, H1, H3.
    inversion Ht; subst; cbn; rewrite !app_nil_r; repeat split; auto.
Qed.

(** An empty batch is not short-circuited: for a playlist with a non-zero
    count below the limit the first page is still fetched and the append is
    still called, with the empty list, and the counts end as they were. *)
Theorem add_of_no_tracks fuel playlist_id (self : SpotifyPlaylist R) o self' log r page :
  counter_get (playlist_count self) playlist_id <> 0 ->
  counter_get (playlist_count self) playlist_id < SONG_LIMIT ->
  user_playlist api (spotify self) (user self) playlist_id "tracks,next,name"
    = (r, inr page) ->
  add api fuel playlist_id [] self = (o, self', log) ->
  playlist_count self' = playlist_count self /\
  exists err,
    log = [Event (user_playlist_call (user self) playlist_id "tracks,next,name") None;
           Event (add_tracks_call (user self) playlist_id []) err].
Proof.
  intros Hsome Hroom Hfetch Hrun. apply add_follows_path in Hrun.
  assert (Hsame : counter_iadd (playlist_count self) playlist_id 0 = playlist_count self).
  { unfold counter_iadd, counter_get in *.
    destruct (playlist_count self !! playlist_id) as [c|] eqn:Hc; [|done].
    cbn. rewrite Z.add_0_r. by apply insert_id. }
  destruct Hrun as [e s l Hr|s l Hr|s1 l1 o s' l Hr Ht];
    inversion Hr; subst; cbn in *; try lia; try congruence.
  inversion Ht; subst; cbn; eauto.
Qed.

End Calls.

(** ** The standalone copy and the script *)

Section Copies.

Context {R : Type}.
Variable api : Spotify R.

Lemma remove_tracks_agrees fuel playlist_id n_tracks (self : SpotifyPlaylist R) :
  remove_tracks api fuel playlist_id n_tracks self
  = remove api fuel playlist_id n_tracks self \/
  exists self1 log1,
    remove api fuel playlist_id n_tracks self
    = (Raise (PlaylistError (limit_message n_tracks)), self1, log1) /\
    remove_tracks api fuel playlist_id n_tracks self
    = (Raise (SpotifyPlaylistException (limit_message n_tracks)), self1, log1).
Proof.
  unfold remove_tracks, remove, bind, remote, self_user, count_of, ret, raise. cbn.
  destruct (user_playlist api (spotify self) (user self) playlist_id "tracks,next,name")
    as [r [e|page]]; cbn; [by left|].
  destruct (counter_get (playlist_count self) playlist_id + n_tracks >=? SONG_LIMIT);
    cbn; [|by left].
  destruct (counter_get (playlist_count self) playlist_id + n_tracks - SONG_LIMIT
            >? counter_get (playlist_count self) playlist_id); cbn; [|by left].
  right. by eexists _, _.
Qed.

(** [add_track] of [spotify.py] and [add] of [playlist.py] do the same: the
    same remote calls with the same answers, the same object afterwards, and
    the same outcome, except that where [add] ends in the [TypeError] of
    calling [PlaylistError], [add_track] ends in that of calling
    [SpotifyPlaylistException]. *)
Theorem add_track_agrees_with_add fuel playlist_id tracks (self : SpotifyPlaylist R) :
  object_of (add_track api fuel playlist_id tracks self)
  = object_of (add api fuel playlist_id tracks self) /\
  log_of (add_track api fuel playlist_id tracks self)
  = log_of (add api fuel playlist_id tracks self) /\
  (outcome_of (add_track api fuel playlist_id tracks self)
   = outcome_of (add api fuel playlist_id tracks self) \/
   (outcome_of (add api fuel playlist_id tracks self)
    = Raise (TypeError "PlaylistError() takes no arguments") /\
    outcome_of (add_track api fuel playlist_id tracks self)
    = Raise (TypeError "SpotifyPlaylistException() takes no arguments"))).
Proof.
  unfold add_track, add, bind.
  destruct (remove_tracks_agrees fuel playlist_id (Z.of_nat (length tracks)) self)
    as [->|(self1 & log1 & -> & ->)]; [|cbn; auto].
  destruct (remove api fuel playlist_id (Z.of_nat (length tracks)) self)
    as [[[[]|e|] self1] log1]; cbn; auto.
  unfold add_try, try_except_SpotifyException, bind, remote, self_user,
    count_iadd, ret, raise. cbn.
  destruct (user_playlist_add_tracks api (spotify self1) (user self1) playlist_id tracks)
    as [r [e|results]]; cbn; auto.
  destruct e; cbn; auto.
Qed.

(** The script never evicts: it starts from an empty [Counter] and adds two
    tracks, so the eviction test sees 2 tracks in all and no removal call is
    issued, however full the playlist is and whatever the remote answers. *)
Theorem playlistbot_never_evicts fuel USER PLAYLIST_ID (client : R) :
  List.filter is_remove_call (log_of (playlistbot_main api fuel USER PLAYLIST_ID client))
  = [].
Proof.
  unfold playlistbot_main.
  destruct (add api fuel PLAYLIST_ID playlistbot_tracks (SpotifyPlaylist_init USER client))
    as [[o self'] log] eqn:Hrun. cbn.
  apply add_follows_path in Hrun.
  assert (Hwalk : forall pg (s s1 : SpotifyPlaylist R) ow lw,
            count_songs api fuel PLAYLIST_ID pg s = (ow, s1, lw) ->
            List.filter is_remove_call lw = []).
  { intros pg s s1 ow lw Hw. apply count_songs_next_only in Hw.
    by apply next_calls_filtered; [apply next_call_not_remove|]. }
  assert (Hremove : forall ow s1 l1,
            remove_path api fuel PLAYLIST_ID (Z.of_nat (length playlistbot_tracks))
              (SpotifyPlaylist_init USER client) ow s1 l1 ->
            List.filter is_remove_call l1 = []).
  { intros ow s1 l1 Hr. inversion Hr; subst; cbn in *; try done;
      try (unfold counter_get, SONG_LIMIT in *; rewrite lookup_empty in *; cbn in *; lia).
    eauto. }
  destruct Hrun as [e s l Hr|s l Hr|s1 l1 o s' l Hr Ht]; eauto.
  rewrite List.filter_app, (Hremove _ _ _ Hr). by inversion Ht.
Qed.

End Copies.

(** ** The further properties at concrete runs *)

Lemma removal_list_from_first_page_witness :
  let self := tracking 9999
    [page_response (inr (page_at 9999 100 0)); removed_response (inr tt);
     added_response (inr snapshot)] in
  [track 0]
  = take (Z.to_nat (counter_get (playlist_count self) "p"
                    + Z.of_nat (length [track 20000; track 20001]) - SONG_LIMIT))
      (items (page_at 9999 100 0)).
Proof.
  intros self.
  eapply (removal_list_from_first_page replay 1 "p" [track 20000; track 20001] self
            _ _ _ _ (page_at 9999 100 0) "jeff" "p" [track 0] None).
  - vm_compute. reflexivity.
  - reflexivity.
  - vm_compute. right. left. reflexivity.
Defined.

Lemma first_add_counts_then_appends_witness :
  add replay 2 "p" [track 500]
    (Self "jeff" (two_pages ++ [added_response (inr snapshot)]) ∅)
  = (Return snapshot,
     Self "jeff" []
       (<["p" := total_of [page_at 150 100 0; page_at 150 100 100]
                 + Z.of_nat (length [track 500])]> ∅),
     Event (user_playlist_call "jeff" "p" "tracks,next,name") None
     :: walk_log (page_at 150 100 0) [page_at 150 100 100]
     ++ [Event (add_tracks_call "jeff" "p" [track 500]) None]).
Proof.
  eapply (first_add_counts_then_appends replay 2 "p" [track 500] "jeff" _ ∅
            [page_response (inr (page_at 150 100 100)); added_response (inr snapshot)]
            (page_at 150 100 0) [page_at 150 100 100]
            [added_response (inr snapshot)] [] snapshot).
  - reflexivity.
  - vm_compute. reflexivity.
  - reflexivity.
  - eapply served_next; [reflexivity|reflexivity|]. apply served_last. reflexivity.
  - simpl. lia.
  - reflexivity.
Defined.

Lemma first_add_interrupted_walk_witness :
  add replay 2 "p" [track 500]
    (Self "jeff"
       [page_response (inr (page_at 150 100 0)); page_response (inl server_error)] ∅)
  = (Raise server_error,
     Self "jeff" [] (<["p" := total_of [page_at 150 100 0]]> ∅),
     Event (user_playlist_call "jeff" "p" "tracks,next,name") None
     :: walk_log (page_at 150 100 0) []
     ++ [Event (next_call (List.last [] (page_at 150 100 0))) (Some server_error)]).
Proof.
  eapply (first_add_interrupted_walk replay 2 "p" [track 500] "jeff" _ ∅
            [page_response (inl server_error)] (page_at 150 100 0) []
            server_error []).
  - reflexivity.
  - vm_compute. reflexivity.
  - reflexivity.
  - apply broken_here; reflexivity.
  - simpl. lia.
Defined.

Lemma add_leaves_other_playlists_witness :
  let self := Self "jeff" (two_pages ++ [added_response (inr snapshot)]) {[ "q" := 7 ]} in
  let run := add replay 2 "p" [track 500] self in
  user (object_of run) = user self /\
  playlist_count (object_of run) !! "q" = playlist_count self !! "q".
Proof.
  intros self run.
  eapply (add_leaves_other_playlists replay 2 "p" [track 500] self (outcome_of run)
            (object_of run) (log_of run) "q").
  - vm_compute. reflexivity.
  - discriminate.
Defined.

Lemma cached_counts_never_decrease_witness :
  let self := tracking 120
    [page_response (inr (page_at 120 100 0)); added_response (inr snapshot);
     page_response (inr (page_at 121 100 0)); added_response (inl server_error)] in
  let reqs := [("p", [track 500]); ("p", [track 501])] in
  counter_get (playlist_count self) "p"
  <= counter_get (playlist_count (fst (add_all replay 2 reqs self))) "p".
Proof.
  intros self reqs.
  apply (cached_counts_never_decrease replay 2 reqs self
           (fst (add_all replay 2 reqs self)) (snd (add_all replay 2 reqs self))).
  vm_compute. reflexivity.
Defined.

Lemma add_all_counts_nonneg_witness :
  let self := fresh (two_pages ++ [added_response (inr snapshot)]) in
  let reqs := [("p", [track 500])] in
  0 <= counter_get (playlist_count (fst (add_all replay 2 reqs self))) "p".
Proof.
  intros self reqs.
  eapply (add_all_counts_nonneg replay 2 reqs self _ (snd (add_all replay 2 reqs self)) "p").
  - reflexivity.
  - vm_compute. reflexivity.
Defined.

Lemma add_returned_count_witness :
  let self := tracking 120
    [page_response (inr (page_at 120 100 0)); added_response (inr snapshot)] in
  let run := add replay 1 "p" [track 500] self in
  counter_get (playlist_count (object_of run)) "p"
  = counter_get (playlist_count self) "p" + Z.of_nat (length [track 500]).
Proof.
  intros self run.
  eapply (add_returned_count replay 1 "p" [track 500] self snapshot (object_of run)
            (log_of run)).
  - vm_compute. reflexivity.
  - vm_compute. discriminate.
Defined.


Lemma add_untracked_never_evicts_witness :
  let self := fresh (two_pages ++ [added_response (inr snapshot)]) in
  List.filter is_remove_call (log_of (add replay 2 "p" [track 500] self)) = [].
Proof.
  intros self.
  eapply (add_untracked_never_evicts replay 2 "p" [track 500] self
            (outcome_of (add replay 2 "p" [track 500] self))
            (object_of (add replay 2 "p" [track 500] self))).
  - reflexivity.
  - vm_compute. reflexivity.
  - vm_compute. reflexivity.
Defined.

Lemma add_returns_after_clean_calls_witness :
  let self := tracking 9999
    [page_response (inr (page_at 9999 100 0)); removed_response (inr tt);
     added_response (inr snapshot)] in
  let tracks := [track 20000; track 20001] in
  let run := add replay 1 "p" tracks self in
  Forall (fun ev => ev_error ev = None) (log_of run) /\
  exists pre, log_of run = pre ++ [Event (add_tracks_call (user self) "p" tracks) None].
Proof.
  intros self tracks run.
  eapply (add_returns_after_clean_calls replay 1 "p" tracks self snapshot (object_of run)).
  vm_compute. reflexivity.
Defined.

Lemma failed_call_ends_add_witness :
  let self := tracking 9999
    [page_response (inr (page_at 9999 100 0)); removed_response (inl server_error)] in
  let run := add replay 1 "p" [track 20000; track 20001] self in
  let ev := Event (remove_all_occurrences_call "jeff" "p" [track 0]) (Some server_error) in
  @nil event = [] /\
  Forall (fun ev => ev_error ev = None)
    [Event (user_playlist_call "jeff" "p" "tracks,next,name") None] /\
  outcome_of run = Raise (if is_add_call ev then surfaced server_error else server_error).
Proof.
  intros self run ev.
  eapply (failed_call_ends_add replay 1 "p" [track 20000; track 20001] self
            (outcome_of run) (object_of run) (log_of run)
            [Event (user_playlist_call "jeff" "p" "tracks,next,name") None] ev []
            server_error).
  - vm_compute. reflexivity.
  - vm_compute. reflexivity.
  - reflexivity.
Defined.


Lemma add_call_budget_witness :
  let self := tracking 9999
    [page_response (inr (page_at 9999 100 0)); removed_response (inr tt);
     added_response (inr snapshot)] in
  let run := add replay 1 "p" [track 20000; track 20001] self in
  exists err rest,
    log_of run = Event (user_playlist_call (user self) "p" "tracks,next,name") err
                 :: rest /\
    List.filter is_user_playlist_call rest = [] /\
    (length (List.filter is_remove_call rest) <= 1)%nat /\
    (length (List.filter is_add_call rest) <= 1)%nat /\
    (List.filter is_next_call rest = [] \/ List.filter is_remove_call rest = []).
Proof.
  intros self run.
  eapply (add_call_budget replay 1 "p" [track 20000; track 20001] self
            (outcome_of run) (object_of run) (log_of run)).
  vm_compute. reflexivity.
Defined.

Lemma add_of_no_tracks_witness :
  let self := tracking 120
    [page_response (inr (page_at 120 100 0)); added_response (inr snapshot)] in
  let run := add replay 1 "p" [] self in
  playlist_count (object_of run) = playlist_count self /\
  exists err,
    log_of run
    = [Event (user_playlist_call (user self) "p" "tracks,next,name") None;
       Event (add_tracks_call (user self) "p" []) err].
Proof.
  intros self run.
  eapply (add_of_no_tracks replay 1 "p" self (outcome_of run) (object_of run) (log_of run)
            [added_response (inr snapshot)] (page_at 120 100 0)).
  - vm_compute. discriminate.
  - vm_compute. reflexivity.
  - reflexivity.
  - vm_compute. reflexivity.
Defined.

Lemma walk_has_no_bound_witness :
  outcome_of (count_songs looping 50 "p" looping_page (Self "jeff" tt ∅)) = Timeout.
Proof.
  apply (walk_has_no_bound looping looping_page).
  - reflexivity.
  - intros []. exists tt. reflexivity.
Defined.
